(** * Vasicek closed-form evaluator: a shallow embedding and its properties

    The notebook [Finance/Vasicek Analysis.ipynb] defines two scalar
    functions, [vasicek_expectation] and [vasicek_variance], and evaluates
    one further expression inline, the probability of a negative rate,
    [norm.cdf(-r_t_expectation/r_t_variance ** 0.5)].

    Numbers are modelled as the real numbers the Python values denote:
    [np.exp] is the real exponential, [+ - *] are the field operations, and
    rounding, overflow and the IEEE special values are not modelled.  An
    operation that has no real result ([/] with divisor zero, [** 0.5] on a
    negative base) is a [Fault]: on Python scalars the first raises
    [ZeroDivisionError]; on NumPy scalars both yield inf or nan together
    with the matching floating-point warning. *)

From Stdlib Require Import Reals Lra Lia ZArith.

Open Scope R_scope.

(** ** Python scalar arithmetic *)

Module Py.

Inductive fault : Set :=
| ZeroDivision    (* x / 0 *)
| InvalidValue.   (* a negative base under a fractional power *)

Inductive outcome (A : Type) : Type :=
| Ok (a : A)
| Fault (f : fault).

Arguments Ok {A} a.
Arguments Fault {A} f.

Definition ret {A : Type} (a : A) : outcome A := Ok a.

Definition bind {A B : Type} (m : outcome A) (k : A -> outcome B) : outcome B :=
  match m with
  | Ok a => k a
  | Fault f => Fault f
  end.

(** [a / b] *)
Definition truediv (a b : R) : outcome R :=
  if Req_dec_T b 0 then Fault ZeroDivision else Ok (a / b).

(** [a ** 0.5] *)
Definition pow_half (a : R) : outcome R :=
  if Rlt_dec a 0 then Fault InvalidValue else Ok (sqrt a).

End Py.

(** ** NumPy *)

Module np.

(** [np.exp(x)] *)
Definition exp (x : R) : R := Rtrigo_def.exp x.

End np.

(** ** The standard normal distribution function

    [scipy.stats.norm.cdf] is the distribution function of the standard
    normal law: the law on the real line whose density is proportional to
    [exp(-u^2/2)].  With [mass a b] the integral of that kernel over
    [[a, b]], [cdf x] is the mass below [x] divided by the mass of the whole
    line, each an improper integral of a positive function, hence the
    supremum of the integrals over bounded intervals. *)

Module norm.

(** The kernel of the density. *)
Definition kernel (u : R) : R := exp (- (u² / 2)).

Lemma kernel_continuity : continuity kernel.
Proof. unfold kernel. reg. Qed.

Lemma kernel_integrable (a b : R) : Riemann_integrable kernel a b.
Proof.
  destruct (Rle_dec a b) as [H | H].
  - apply continuity_implies_RiemannInt; [exact H |].
    intros x _. apply kernel_continuity.
  - apply RiemannInt_P1, continuity_implies_RiemannInt; [lra |].
    intros x _. apply kernel_continuity.
Qed.

(** The integral of the kernel from [a] to [b]. *)
Definition mass (a b : R) : R := RiemannInt (kernel_integrable a b).

(** The integrals over the bounded intervals that end at [x], and over all
    bounded intervals. *)
Definition masses_below (x m : R) : Prop :=
  exists a : R, a <= x /\ m = mass a x.

Definition masses (m : R) : Prop :=
  exists a b : R, a <= b /\ m = mass a b.

(** The kernel lies below the derivative of [2 * atan], which bounds
    every [mass a b] by [2 * PI]. *)
Definition envelope (u : R) : R := 2 * (1 / (1 + u²)).

Lemma kernel_pos (u : R) : 0 < kernel u.
Proof. apply exp_pos. Qed.

Lemma kernel_le_envelope (u : R) : kernel u <= envelope u.
Proof.
  unfold kernel, envelope, Rsqr.
  assert (Hy : 0 <= u * u) by nra.
  rewrite exp_Ropp.
  pose proof (exp_ineq1_le (u * u / 2)) as He.
  apply Rle_trans with (/ (1 + u * u / 2)).
  - apply Rinv_le_contravar; lra.
  - unfold Rdiv. rewrite Rmult_1_l.
    apply Rmult_le_reg_r with ((1 + u * u * / 2) * (1 + u * u)); [nra |].
    field_simplify; nra.
Qed.

Lemma two_atan_derivable : derivable (mult_real_fct 2 atan).
Proof. apply derivable_scal. exact derivable_pt_atan. Qed.

Lemma two_atan_derive (x : R) :
  derive (mult_real_fct 2 atan) two_atan_derivable x = envelope x.
Proof.
  unfold derive, envelope.
  rewrite (pr_nu _ _ _ (derivable_pt_scal atan 2 x (derivable_pt_atan x))).
  now rewrite derive_pt_scal, derive_pt_atan.
Qed.

Lemma envelope_continuity : continuity envelope.
Proof. unfold envelope. intros x. reg. unfold Rsqr. nra. Qed.

Lemma two_atan_derive_continuity :
  continuity (derive (mult_real_fct 2 atan) two_atan_derivable).
Proof.
  intros x.
  apply (continuity_pt_locally_ext envelope _ 1 x);
    [lra | | apply envelope_continuity].
  intros y _. symmetry. apply two_atan_derive.
Qed.

Definition two_atan : C1_fun := mkC1 two_atan_derive_continuity.

Lemma mass_le_atan (a b : R) :
  a <= b -> mass a b <= 2 * atan b - 2 * atan a.
Proof.
  intros Hab. unfold mass.
  apply Rle_trans with (RiemannInt (RiemannInt_P32 two_atan a b)).
  - apply RiemannInt_P19; [exact Hab |].
    intros x _. cbn [c1 diff0 two_atan]. rewrite two_atan_derive.
    apply kernel_le_envelope.
  - rewrite FTC_Riemann. cbn [c1 two_atan]. unfold mult_real_fct. lra.
Qed.

Lemma mass_bounded (a b : R) : a <= b -> mass a b <= 2 * PI.
Proof.
  intros Hab. pose proof (mass_le_atan a b Hab).
  pose proof (atan_bound a). pose proof (atan_bound b). lra.
Qed.

Lemma mass_empty (a : R) : mass a a = 0.
Proof. unfold mass. apply RiemannInt_P9. Qed.

Lemma masses_below_bound (x : R) : bound (masses_below x).
Proof.
  exists (2 * PI). intros m (a & Ha & ->). now apply mass_bounded.
Qed.

Lemma masses_below_inhabited (x : R) : exists m : R, masses_below x m.
Proof. exists (mass x x), x. split; [lra | reflexivity]. Qed.

Lemma masses_bound : bound masses.
Proof.
  exists (2 * PI). intros m (a & b & Hab & ->). now apply mass_bounded.
Qed.

Lemma masses_inhabited : exists m : R, masses m.
Proof. exists (mass 0 0), 0, 0. split; [lra | reflexivity]. Qed.

(** The mass below [x]: the integral of the kernel from minus infinity. *)
Definition mass_below (x : R) : R :=
  proj1_sig (completeness (masses_below x)
               (masses_below_bound x) (masses_below_inhabited x)).

(** The mass of the whole line. *)
Definition total_mass : R :=
  proj1_sig (completeness masses masses_bound masses_inhabited).

(** [norm.cdf(x)] *)
Definition cdf (x : R) : R := mass_below x / total_mass.

End norm.

Import Py.

Notation "x <- m ;; k" := (bind m (fun x => k))
  (at level 61, m at next level, right associativity).

(** ** The notebook's functions *)

(** [def vasicek_expectation(gamma, t, r_bar, r_0):
       return r_0*np.exp(-gamma*t) + r_bar*(1 - np.exp(-gamma*t))] *)
Definition vasicek_expectation (gamma t r_bar r_0 : R) : outcome R :=
  ret (r_0 * np.exp (- gamma * t) + r_bar * (1 - np.exp (- gamma * t))).

(** [def vasicek_variance (sigma, gamma, t):
       return sigma**2/(2*gamma)*(1-np.exp(-2*gamma*t))]

    The quotient is the left operand of the product, so it is evaluated
    first. *)
Definition vasicek_variance (sigma gamma t : R) : outcome R :=
  q <- truediv (sigma ^ 2) (2 * gamma) ;;
  ret (q * (1 - np.exp (- 2 * gamma * t))).

(** The expression the notebook evaluates inline on the two results,
    [norm.cdf(-r_t_expectation/r_t_variance ** 0.5)]: the power binds
    tightest, then the unary minus, then the quotient, whose left operand
    is evaluated first. *)
Definition negative_rate_probability (r_t_expectation r_t_variance : R)
  : outcome R :=
  let n := - r_t_expectation in
  s <- pow_half r_t_variance ;;
  z <- truediv n s ;;
  ret (norm.cdf z).

(** The notebook's run, over the values its cells assign to [gamma],
    [r_bar], [r_0], [t] and [sigma]:
    [r_t_expectation = vasicek_expectation(gamma, t, r_bar, r_0)], then
    [r_t_variance = vasicek_variance(sigma, gamma, t)], then the inline
    expression on the two results. *)
Definition notebook_negative_rate_probability (gamma r_bar r_0 t sigma : R)
  : outcome R :=
  r_t_expectation <- vasicek_expectation gamma t r_bar r_0 ;;
  r_t_variance <- vasicek_variance sigma gamma t ;;
  negative_rate_probability r_t_expectation r_t_variance.

(** A function of a real argument tends to [l] at plus infinity. *)
Definition tends_to_at_infinity (f : R -> outcome R) (l : R) : Prop :=
  forall eps : R, 0 < eps ->
    exists T : R, forall t : R, T < t ->
      exists v : R, f t = Ok v /\ Rabs (v - l) < eps.

(** ** The formulas as the specification words them *)

Definition expected_rate_formula (gamma t r_bar r_0 : R) : R :=
  r_0 * exp (- (gamma * t)) + r_bar * (1 - exp (- (gamma * t))).

Definition rate_variance_formula (sigma gamma t : R) : R :=
  sigma ^ 2 / (2 * gamma) * (1 - exp (- (2 * gamma * t))).

(** ** Helper facts *)

(** Comparing a quotient by a positive divisor. *)
Lemma div_lt_iff (a b c : R) : 0 < c -> a / c < b <-> a < b * c.
Proof.
  intros Hc. split; intros H.
  - apply (Rmult_lt_compat_r c) in H; [| exact Hc].
    unfold Rdiv in H. rewrite Rmult_assoc, Rinv_l, Rmult_1_r in H by lra.
    exact H.
  - apply Rmult_lt_reg_r with c; [exact Hc |].
    unfold Rdiv. rewrite Rmult_assoc, Rinv_l, Rmult_1_r by lra. exact H.
Qed.

Lemma lt_div_iff (a b c : R) : 0 < c -> a < b / c <-> a * c < b.
Proof.
  intros Hc. split; intros H.
  - apply (Rmult_lt_compat_r c) in H; [| exact Hc].
    unfold Rdiv in H. rewrite Rmult_assoc, Rinv_l, Rmult_1_r in H by lra.
    exact H.
  - apply Rmult_lt_reg_r with c; [exact Hc |].
    unfold Rdiv. rewrite Rmult_assoc, Rinv_l, Rmult_1_r by lra. exact H.
Qed.

Lemma div_nonneg (a c : R) : 0 <= a -> 0 < c -> 0 <= a / c.
Proof.
  intros Ha Hc. apply Rmult_le_pos; [exact Ha |].
  left. now apply Rinv_0_lt_compat.
Qed.

Lemma neg_mul_arg (gamma t : R) : - gamma * t = - (gamma * t).
Proof. ring. Qed.

Lemma neg2_mul_arg (gamma t : R) : - 2 * gamma * t = - (2 * gamma * t).
Proof. ring. Qed.

Lemma expectation_value (gamma t r_bar r_0 : R) :
  vasicek_expectation gamma t r_bar r_0
  = Ok (r_bar + (r_0 - r_bar) * exp (- (gamma * t))).
Proof.
  unfold vasicek_expectation, ret, np.exp.
  rewrite neg_mul_arg. f_equal. ring.
Qed.

Lemma truediv_nonzero (a b : R) : b <> 0 -> truediv a b = Ok (a / b).
Proof.
  intros Hb. unfold truediv.
  destruct (Req_dec_T b 0) as [E | _]; [contradiction | reflexivity].
Qed.

Lemma truediv_zero (a : R) : truediv a 0 = Fault ZeroDivision.
Proof.
  unfold truediv.
  destruct (Req_dec_T 0 0) as [_ | N]; [reflexivity | now elim N].
Qed.

Lemma variance_value (sigma gamma t : R) :
  gamma <> 0 ->
  vasicek_variance sigma gamma t
  = Ok (sigma ^ 2 / (2 * gamma) * (1 - exp (- (2 * gamma * t)))).
Proof.
  intros Hg. unfold vasicek_variance.
  rewrite truediv_nonzero by lra.
  cbn [bind]. unfold ret, np.exp.
  now rewrite neg2_mul_arg.
Qed.

Lemma exp_neg_le_1 (x : R) : 0 <= x -> exp (- x) <= 1.
Proof.
  intros Hx. rewrite <- exp_0.
  destruct Hx as [Hx | <-].
  - left. apply exp_increasing. lra.
  - rewrite Ropp_0. lra.
Qed.

Lemma exp_neg_antitone (x y : R) : x <= y -> exp (- y) <= exp (- x).
Proof.
  intros [H | ->]; [left; apply exp_increasing; lra | lra].
Qed.

Lemma variance_scale_nonneg (sigma gamma : R) :
  0 < gamma -> 0 <= sigma ^ 2 / (2 * gamma).
Proof.
  intros Hg. apply div_nonneg; [apply pow2_ge_0 | lra].
Qed.

Lemma pow_half_nonneg (a : R) : 0 <= a -> pow_half a = Ok (sqrt a).
Proof.
  intros Ha. unfold pow_half.
  destruct (Rlt_dec a 0) as [N | _]; [lra | reflexivity].
Qed.

Lemma negative_rate_probability_value (mean variance : R) :
  0 < variance ->
  negative_rate_probability mean variance
  = Ok (norm.cdf (- mean / sqrt variance)).
Proof.
  intros Hv. unfold negative_rate_probability.
  rewrite pow_half_nonneg by lra. cbn [bind].
  rewrite truediv_nonzero.
  - reflexivity.
  - pose proof (sqrt_lt_R0 variance Hv). lra.
Qed.

(** ** The distribution function [norm.cdf] *)

Lemma mass_below_is_lub (x : R) : is_lub (norm.masses_below x) (norm.mass_below x).
Proof. unfold norm.mass_below. apply proj2_sig. Qed.

Lemma total_mass_is_lub : is_lub norm.masses norm.total_mass.
Proof. unfold norm.total_mass. apply proj2_sig. Qed.

Lemma kernel_le_1 (u : R) : norm.kernel u <= 1.
Proof.
  unfold norm.kernel. apply exp_neg_le_1.
  unfold Rsqr. nra.
Qed.

Lemma mass_chasles (a b c : R) : norm.mass a b + norm.mass b c = norm.mass a c.
Proof. unfold norm.mass. apply RiemannInt_P26. Qed.

Lemma mass_lower (a b l : R) :
  a <= b -> (forall u : R, a < u < b -> l <= norm.kernel u) ->
  l * (b - a) <= norm.mass a b.
Proof.
  intros Hab Hl. unfold norm.mass.
  apply (@RiemannInt_const_bound norm.kernel a b l 1); [exact Hab |].
  intros u Hu. split; [now apply Hl | apply kernel_le_1].
Qed.

Lemma mass_nonneg (a b : R) : a <= b -> 0 <= norm.mass a b.
Proof.
  intros Hab. replace 0 with (0 * (b - a)) by ring.
  apply mass_lower; [exact Hab |].
  intros u _. left. apply norm.kernel_pos.
Qed.

Lemma mass_le_total (a b : R) : a <= b -> norm.mass a b <= norm.total_mass.
Proof.
  intros Hab. apply (proj1 total_mass_is_lub).
  exists a, b. split; [exact Hab | reflexivity].
Qed.

Lemma mass_le_below (a x : R) : a <= x -> norm.mass a x <= norm.mass_below x.
Proof.
  intros Hax. apply (proj1 (mass_below_is_lub x)).
  exists a. split; [exact Hax | reflexivity].
Qed.

Lemma mass_below_nonneg (x : R) : 0 <= norm.mass_below x.
Proof.
  rewrite <- (norm.mass_empty x). apply mass_le_below. lra.
Qed.

Lemma mass_below_le_total (x : R) : norm.mass_below x <= norm.total_mass.
Proof.
  apply (proj2 (mass_below_is_lub x)).
  intros m (a & Ha & ->). now apply mass_le_total.
Qed.

Lemma total_mass_pos : 0 < norm.total_mass.
Proof.
  apply Rlt_le_trans with (exp (- (1 / 2)) * (1 - 0)).
  - rewrite Rminus_0_r, Rmult_1_r. apply exp_pos.
  - apply Rle_trans with (norm.mass 0 1); [| apply mass_le_total; lra].
    apply mass_lower; [lra |].
    intros u [Hu0 Hu1]. unfold norm.kernel, Rsqr.
    apply exp_neg_antitone. nra.
Qed.

Lemma norm_cdf_range (x : R) : 0 <= norm.cdf x <= 1.
Proof.
  unfold norm.cdf.
  pose proof total_mass_pos as Hp.
  pose proof (mass_below_nonneg x) as H0.
  pose proof (mass_below_le_total x) as H1.
  split; [now apply div_nonneg |].
  destruct H1 as [H1 | H1].
  - left. apply div_lt_iff; lra.
  - right. rewrite H1. apply Rdiv_diag. lra.
Qed.

(** The mass below [y] is the mass below [x] plus the mass between. *)
Lemma mass_below_split (x y : R) :
  x <= y -> norm.mass_below y = norm.mass_below x + norm.mass x y.
Proof.
  intros Hxy. apply Rle_antisym.
  - apply (proj2 (mass_below_is_lub y)).
    intros m (a & Ha & ->).
    destruct (Rle_dec a x) as [Hax | Hax].
    + rewrite <- (mass_chasles a x y).
      pose proof (mass_le_below a x Hax). lra.
    + assert (Hxa : x <= a) by lra.
      pose proof (mass_chasles x a y) as Hc.
      pose proof (mass_nonneg x a Hxa).
      pose proof (mass_below_nonneg x). lra.
  - apply Rplus_le_reg_r with (- norm.mass x y).
    replace (norm.mass_below x + norm.mass x y + - norm.mass x y)
      with (norm.mass_below x) by ring.
    apply (proj2 (mass_below_is_lub x)).
    intros m (a & Ha & ->).
    pose proof (mass_chasles a x y) as Hc.
    assert (Hay : a <= y) by lra.
    pose proof (mass_le_below a y Hay). lra.
Qed.

Lemma norm_cdf_increment (x y : R) :
  x <= y -> norm.cdf y - norm.cdf x = norm.mass x y / norm.total_mass.
Proof.
  intros Hxy. unfold norm.cdf. rewrite (mass_below_split x y Hxy).
  pose proof total_mass_pos. field. lra.
Qed.

Lemma norm_cdf_monotone (x y : R) : x <= y -> norm.cdf x <= norm.cdf y.
Proof.
  intros Hxy. pose proof (norm_cdf_increment x y Hxy) as Hi.
  pose proof (mass_nonneg x y Hxy) as Hm.
  pose proof total_mass_pos as Hp.
  pose proof (div_nonneg _ _ Hm Hp). lra.
Qed.

Lemma mass_below_le_atan (x : R) : norm.mass_below x <= 2 * atan x + PI.
Proof.
  apply (proj2 (mass_below_is_lub x)).
  intros m (a & Ha & ->).
  pose proof (norm.mass_le_atan a x Ha). pose proof (atan_bound a). lra.
Qed.

Lemma total_mass_le_atan (x : R) :
  norm.total_mass <= norm.mass_below x + (PI - 2 * atan x).
Proof.
  pose proof (atan_bound x) as Bx.
  pose proof (mass_below_nonneg x) as H0.
  apply (proj2 total_mass_is_lub).
  intros m (a & b & Hab & ->).
  destruct (Rle_dec b x) as [Hbx | Hbx].
  - pose proof (mass_chasles a b x) as Hc.
    pose proof (mass_nonneg b x Hbx).
    assert (Hax : a <= x) by lra.
    pose proof (mass_le_below a x Hax). lra.
  - assert (Hxb : x <= b) by lra.
    pose proof (atan_bound b) as Bb.
    destruct (Rle_dec a x) as [Hax | Hax].
    + pose proof (mass_chasles a x b) as Hc.
      pose proof (mass_le_below a x Hax).
      pose proof (norm.mass_le_atan x b Hxb). lra.
    + assert (Hxa : x < a) by lra.
      pose proof (norm.mass_le_atan a b Hab).
      pose proof (atan_increasing x a Hxa). lra.
Qed.

Lemma atan_small_angle (d : R) :
  0 < d -> exists X : R, forall x : R, x < X -> 2 * atan x + PI < d.
Proof.
  intros Hd. pose proof PI_RGT_0 as Hpi.
  set (m := Rmin (d / 4) (PI / 2)).
  assert (Hm : 0 < m) by (unfold m; apply Rmin_glb_lt; lra).
  assert (Hm1 : m <= d / 4) by apply Rmin_l.
  assert (Hm2 : m <= PI / 2) by apply Rmin_r.
  exists (tan (- (PI / 2) + m)). intros x Hx.
  apply atan_increasing in Hx.
  rewrite atan_tan in Hx by lra. lra.
Qed.

Lemma atan_large_angle (d : R) :
  0 < d -> exists X : R, forall x : R, X < x -> PI - 2 * atan x < d.
Proof.
  intros Hd. pose proof PI_RGT_0 as Hpi.
  set (m := Rmin (d / 4) (PI / 2)).
  assert (Hm : 0 < m) by (unfold m; apply Rmin_glb_lt; lra).
  assert (Hm1 : m <= d / 4) by apply Rmin_l.
  assert (Hm2 : m <= PI / 2) by apply Rmin_r.
  exists (tan (PI / 2 - m)). intros x Hx.
  apply atan_increasing in Hx.
  rewrite atan_tan in Hx by lra. lra.
Qed.

Lemma norm_cdf_at_minus_infinity (eps : R) :
  0 < eps -> exists X : R, forall x : R, x < X -> norm.cdf x < eps.
Proof.
  intros He. pose proof total_mass_pos as Hp.
  destruct (atan_small_angle (eps * norm.total_mass)) as [X HX]; [nra |].
  exists X. intros x Hx. specialize (HX x Hx).
  pose proof (mass_below_le_atan x) as Hb.
  unfold norm.cdf. apply div_lt_iff; lra.
Qed.

Lemma norm_cdf_at_plus_infinity (eps : R) :
  0 < eps -> exists X : R, forall x : R, X < x -> 1 - eps < norm.cdf x.
Proof.
  intros He. pose proof total_mass_pos as Hp.
  destruct (atan_large_angle (eps * norm.total_mass)) as [X HX]; [nra |].
  exists X. intros x Hx. specialize (HX x Hx).
  pose proof (total_mass_le_atan x) as Hb.
  unfold norm.cdf. apply lt_div_iff; lra.
Qed.

(** ** Exponential decay *)






Lemma exp_neg_below (gamma eps : R) :
  0 < gamma -> 0 < eps ->
  exists T : R, forall t : R, T < t -> exp (- (gamma * t)) < eps.
Proof.
  intros Hg He. exists (- ln eps / gamma). intros t Ht.
  rewrite <- (exp_ln eps He).
  apply exp_increasing.
  apply div_lt_iff in Ht; [lra | exact Hg].
Qed.



(** ** The claims *)

(** C1: for all real gamma, t, r_bar and r_0, [vasicek_expectation] returns
    [r_0 * exp(-gamma*t) + r_bar * (1 - exp(-gamma*t))]. *)
Theorem vasicek_expectation_formula (gamma t r_bar r_0 : R) :
  vasicek_expectation gamma t r_bar r_0
  = Ok (expected_rate_formula gamma t r_bar r_0).
Proof.
  unfold vasicek_expectation, expected_rate_formula, ret, np.exp.
  now rewrite neg_mul_arg.
Qed.

(** C2: for every real sigma and t and every gamma > 0, [vasicek_variance]
    returns [sigma^2 / (2*gamma) * (1 - exp(-2*gamma*t))]. *)
Theorem vasicek_variance_formula (sigma gamma t : R) :
  0 < gamma ->
  vasicek_variance sigma gamma t = Ok (rate_variance_formula sigma gamma t).
Proof.
  intros Hg. unfold rate_variance_formula.
  apply variance_value. lra.
Qed.

Lemma vasicek_variance_formula_witness :
  vasicek_variance 0.05 0.25 5
  = Ok (rate_variance_formula 0.05 0.25 5).
Proof. apply vasicek_variance_formula. lra. Defined.

(** C3: the division by [2*gamma] is unguarded: with gamma = 0 the call ends
    in the division-by-zero fault, whatever sigma and t are, and with
    gamma > 0 it never does. *)
Theorem vasicek_variance_zero_division :
  (forall sigma t : R, vasicek_variance sigma 0 t = Fault ZeroDivision)
  /\ (forall sigma gamma t : R,
         0 < gamma -> vasicek_variance sigma gamma t <> Fault ZeroDivision).
Proof.
  split.
  - intros sigma t. unfold vasicek_variance.
    rewrite Rmult_0_r, truediv_zero. reflexivity.
  - intros sigma gamma t Hg.
    rewrite variance_value by lra. discriminate.
Qed.

Lemma vasicek_variance_zero_division_witness :
  vasicek_variance 0.05 0 5 = Fault ZeroDivision
  /\ vasicek_variance 0.05 0.25 5 <> Fault ZeroDivision.
Proof.
  split.
  - apply (proj1 vasicek_variance_zero_division).
  - apply (proj2 vasicek_variance_zero_division). lra.
Defined.

(** C4: for every gamma > 0 and all real r_bar and r_0, the expectation at
    t = 0 is r_0. *)
Theorem vasicek_expectation_at_0 (gamma r_bar r_0 : R) :
  0 < gamma -> vasicek_expectation gamma 0 r_bar r_0 = Ok r_0.
Proof.
  intros _. rewrite expectation_value.
  rewrite Rmult_0_r, Ropp_0, exp_0. f_equal. ring.
Qed.

Lemma vasicek_expectation_at_0_witness :
  vasicek_expectation 0.25 0 0.04 0.02 = Ok 0.02.
Proof. apply vasicek_expectation_at_0. lra. Defined.

(** C5: for every real sigma, gamma > 0 and t >= 0, the variance is a real
    number that is not negative. *)
Theorem vasicek_variance_nonneg (sigma gamma t : R) :
  0 < gamma -> 0 <= t ->
  exists v : R, vasicek_variance sigma gamma t = Ok v /\ 0 <= v.
Proof.
  intros Hg Ht. eexists. split.
  - apply variance_value. lra.
  - apply Rmult_le_pos.
    + now apply variance_scale_nonneg.
    + assert (exp (- (2 * gamma * t)) <= 1) by (apply exp_neg_le_1; nra).
      lra.
Qed.

Lemma vasicek_variance_nonneg_witness :
  exists v : R, vasicek_variance 0.05 0.25 5 = Ok v /\ 0 <= v.
Proof. apply vasicek_variance_nonneg; lra. Defined.

(** C6: for every real mean and every variance > 0, the inline expression
    evaluates to [norm.cdf] at [-mean / sqrt(variance)], the standard normal
    distribution function at that point, and the value lies in [[0, 1]]. *)
Theorem negative_rate_probability_range (mean variance : R) :
  0 < variance ->
  negative_rate_probability mean variance
  = Ok (norm.cdf (- mean / sqrt variance))
  /\ 0 <= norm.cdf (- mean / sqrt variance) <= 1.
Proof.
  intros Hv. split.
  - now apply negative_rate_probability_value.
  - apply norm_cdf_range.
Qed.

Lemma negative_rate_probability_range_witness :
  exists p : R,
    negative_rate_probability 0.0342699 0.0045896 = Ok p /\ 0 <= p <= 1.
Proof.
  eexists. apply (negative_rate_probability_range 0.0342699 0.0045896). lra.
Defined.

(** C7: [vasicek_expectation] divides nowhere, so it has a real result for
    every input, and with gamma = 0 that result is r_0 for all t, r_bar and
    r_0. *)
Theorem vasicek_expectation_gamma_0 :
  (forall gamma t r_bar r_0 : R,
      exists v : R, vasicek_expectation gamma t r_bar r_0 = Ok v)
  /\ (forall t r_bar r_0 : R, vasicek_expectation 0 t r_bar r_0 = Ok r_0).
Proof.
  split.
  - intros gamma t r_bar r_0. eexists. apply expectation_value.
  - intros t r_bar r_0. rewrite expectation_value.
    rewrite Rmult_0_l, Ropp_0, exp_0. f_equal. ring.
Qed.




(** C9: the variance does not decrease with t: for every real sigma,
    gamma > 0 and 0 <= t1 <= t2, the variance at t1 is at most the variance
    at t2. *)
Theorem vasicek_variance_monotone (sigma gamma t1 t2 : R) :
  0 < gamma -> 0 <= t1 -> t1 <= t2 ->
  exists v1 v2 : R,
    vasicek_variance sigma gamma t1 = Ok v1
    /\ vasicek_variance sigma gamma t2 = Ok v2
    /\ v1 <= v2.
Proof.
  intros Hg Ht1 Ht. do 2 eexists. repeat split.
  - apply variance_value. lra.
  - apply variance_value. lra.
  - apply Rmult_le_compat_l.
    + now apply variance_scale_nonneg.
    + assert (exp (- (2 * gamma * t2)) <= exp (- (2 * gamma * t1)))
        by (apply exp_neg_antitone; nra).
      lra.
Qed.

Lemma vasicek_variance_monotone_witness :
  exists v1 v2 : R,
    vasicek_variance 0.05 0.25 4 = Ok v1
    /\ vasicek_variance 0.05 0.25 5 = Ok v2
    /\ v1 <= v2.
Proof. apply vasicek_variance_monotone; lra. Defined.



(** ** Further properties: helper facts *)

Lemma exp_nonneg_ge_1 (x : R) : 0 <= x -> 1 <= exp x.
Proof. intros Hx. pose proof (exp_ineq1_le x). lra. Qed.

Lemma div_by_negative (a c : R) : c < 0 -> a / c = - (a / - c).
Proof. intros Hc. field. lra. Qed.



(** The sign of [1 - exp(-2*gamma*t)] is the sign of [gamma * t]. *)
Lemma decay_complement_sign (gamma t : R) :
  (0 <= gamma * t -> 0 <= 1 - exp (- (2 * gamma * t)))
  /\ (gamma * t <= 0 -> 1 - exp (- (2 * gamma * t)) <= 0)
  /\ (0 < gamma * t -> 0 < 1 - exp (- (2 * gamma * t))).
Proof.
  repeat split; intros H.
  - pose proof (exp_neg_le_1 (2 * gamma * t)). lra.
  - pose proof (exp_nonneg_ge_1 (- (2 * gamma * t))). lra.
  - assert (exp (- (2 * gamma * t)) < exp 0) by (apply exp_increasing; lra).
    rewrite exp_0 in *. lra.
Qed.

Lemma variance_positive (sigma gamma t : R) :
  gamma <> 0 -> 0 < t -> sigma <> 0 ->
  0 < sigma ^ 2 / (2 * gamma) * (1 - exp (- (2 * gamma * t))).
Proof.
  intros Hg Ht Hs.
  assert (Hs2 : 0 < sigma ^ 2)
    by (rewrite <- Rsqr_pow2; now apply Rsqr_pos_lt).
  destruct (Rdichotomy _ _ Hg) as [Hneg | Hpos].
  - (* both factors are negative *)
    assert (Hq : sigma ^ 2 / (2 * gamma) < 0).
    { rewrite div_by_negative by lra.
      assert (0 < sigma ^ 2 / - (2 * gamma))
        by (apply Rdiv_lt_0_compat; lra).
      lra. }
    assert (He : exp 0 < exp (- (2 * gamma * t)))
      by (apply exp_increasing; nra).
    rewrite exp_0 in He. nra.
  - assert (Hq : 0 < sigma ^ 2 / (2 * gamma))
      by (apply Rdiv_lt_0_compat; lra).
    destruct (decay_complement_sign gamma t) as (_ & _ & Hd).
    apply Rmult_lt_0_compat; [exact Hq | apply Hd; nra].
Qed.


Lemma expectation_nonneg (gamma t r_bar r_0 : R) :
  0 <= gamma -> 0 <= t -> 0 <= r_bar -> 0 <= r_0 ->
  0 <= r_bar + (r_0 - r_bar) * exp (- (gamma * t)).
Proof.
  intros Hg Ht Hb H0.
  assert (Hw1 : exp (- (gamma * t)) <= 1)
    by (apply exp_neg_le_1; now apply Rmult_le_pos).
  pose proof (exp_pos (- (gamma * t))) as Hw0. nra.
Qed.




Lemma standard_score_antitone (m1 m2 s : R) :
  0 < s -> m1 <= m2 -> - m2 / s <= - m1 / s.
Proof.
  intros Hs Hm. unfold Rdiv. apply Rmult_le_compat_r; [| lra].
  left. now apply Rinv_0_lt_compat.
Qed.

Lemma pipeline_value (gamma r_bar r_0 t sigma : R) :
  gamma <> 0 ->
  notebook_negative_rate_probability gamma r_bar r_0 t sigma
  = negative_rate_probability
      (r_bar + (r_0 - r_bar) * exp (- (gamma * t)))
      (sigma ^ 2 / (2 * gamma) * (1 - exp (- (2 * gamma * t)))).
Proof.
  intros Hg. unfold notebook_negative_rate_probability.
  rewrite expectation_value. cbn [bind].
  now rewrite variance_value by exact Hg.
Qed.

(** ** Further properties: the symmetry of [norm.cdf] *)

Lemma kernel_even (u : R) : norm.kernel (- u) = norm.kernel u.
Proof. unfold norm.kernel. now rewrite <- Rsqr_neg. Qed.

Section Reflection.

Variable M : R.
Hypothesis M_nonneg : 0 <= M.

Lemma window_le : - M <= M.
Proof. lra. Qed.

Lemma kernel_C0 (x : R) : - M <= x <= M -> continuity_pt norm.kernel x.
Proof. intros _. apply norm.kernel_continuity. Qed.

(** The mass from [-M], as a function of the upper end. *)
Local Abbreviation from_left :=
  (primitive window_le (FTC_P1 window_le kernel_C0)).

Lemma from_left_mass (x : R) :
  - M <= x <= M -> from_left x = norm.mass (- M) x.
Proof.
  intros [Hl Hr]. unfold primitive.
  destruct (Rle_dec (- M) x) as [Hl' | N]; [| contradiction].
  destruct (Rle_dec x M) as [Hr' | N]; [| contradiction].
  unfold norm.mass. apply RiemannInt_P5.
Qed.

Lemma mirrored_antiderivative :
  antiderivative norm.kernel (fun x => - from_left (- x)) (- M) M.
Proof.
  split; [| exact window_le].
  intros x Hx.
  assert (Hlim : derivable_pt_lim (fun x => - from_left (- x)) x
                   (norm.kernel x)).
  { assert (Hin : - M <= - x <= M) by lra.
    pose proof (RiemannInt_P28 window_le kernel_C0 Hin) as HP.
    rewrite kernel_even in HP.
    pose proof (derivable_pt_lim_opp _ _ _ (derivable_pt_lim_id x)) as Hneg.
    pose proof (derivable_pt_lim_comp (- id)%F from_left x (- 1)
                  (norm.kernel x) Hneg HP) as Hc.
    apply derivable_pt_lim_opp in Hc.
    replace (- (norm.kernel x * - 1)) with (norm.kernel x) in Hc by ring.
    exact Hc. }
  exists (exist _ (norm.kernel x) Hlim).
  symmetry. now apply derive_pt_eq_0.
Qed.

Lemma mass_odd_in_window (x : R) :
  - M <= x <= M -> norm.mass 0 (- x) = - norm.mass 0 x.
Proof.
  intros Hx.
  destruct (antiderivative_Ucte norm.kernel from_left
              (fun x => - from_left (- x)) (- M) M) as [c Hc].
  - apply RiemannInt_P29.
  - exact mirrored_antiderivative.
  - assert (H0 : - M <= 0 <= M) by lra.
    assert (Hx' : - M <= - x <= M) by lra.
    pose proof (Hc 0 H0) as E0. pose proof (Hc x Hx) as Ex.
    cbv beta in E0, Ex. rewrite Ropp_0 in E0.
    rewrite (from_left_mass 0 H0) in E0.
    rewrite (from_left_mass x Hx), (from_left_mass (- x) Hx') in Ex.
    pose proof (mass_chasles (- M) 0 x).
    pose proof (mass_chasles (- M) 0 (- x)). lra.
Qed.

End Reflection.

Lemma mass_odd (x : R) : norm.mass 0 (- x) = - norm.mass 0 x.
Proof.
  apply (mass_odd_in_window (Rabs x)); [apply Rabs_pos |].
  unfold Rabs. destruct (Rcase_abs x); lra.
Qed.

Lemma mass_reflect (a b : R) : norm.mass (- b) (- a) = norm.mass a b.
Proof.
  pose proof (mass_chasles 0 a b). pose proof (mass_chasles 0 (- b) (- a)).
  pose proof (mass_odd a). pose proof (mass_odd b). lra.
Qed.

Lemma mass_below_mirror (x : R) :
  norm.mass_below x + norm.mass_below (- x) = norm.total_mass.
Proof.
  apply Rle_antisym.
  - (* a lower interval and a mirrored lower interval join into one *)
    apply Rplus_le_reg_r with (- norm.mass_below (- x)).
    replace (norm.mass_below x + norm.mass_below (- x)
             + - norm.mass_below (- x))
      with (norm.mass_below x) by ring.
    apply (proj2 (mass_below_is_lub x)).
    intros m (a & Ha & ->).
    apply Rplus_le_reg_r with (norm.mass_below (- x) - norm.mass a x).
    replace (norm.mass a x + (norm.mass_below (- x) - norm.mass a x))
      with (norm.mass_below (- x)) by ring.
    apply (proj2 (mass_below_is_lub (- x))).
    intros m' (a' & Ha' & ->).
    rewrite <- (mass_reflect a' (- x)), Ropp_involutive.
    pose proof (mass_chasles a x (- a')) as Hc.
    assert (Hj : a <= - a') by lra.
    pose proof (mass_le_total a (- a') Hj). lra.
  - apply (proj2 total_mass_is_lub).
    intros m (a & b & Hab & ->).
    pose proof (mass_below_nonneg x) as Hx0.
    pose proof (mass_below_nonneg (- x)) as Hx1.
    destruct (Rle_dec b x) as [Hbx | Hbx].
    + pose proof (mass_chasles a b x) as Hc.
      pose proof (mass_nonneg b x Hbx).
      assert (Hax : a <= x) by lra.
      pose proof (mass_le_below a x Hax). lra.
    + assert (Hb : - b <= - x) by lra.
      pose proof (mass_le_below (- b) (- x) Hb) as Hr.
      rewrite mass_reflect in Hr.
      destruct (Rle_dec a x) as [Hax | Hax].
      * pose proof (mass_chasles a x b) as Hc.
        pose proof (mass_le_below a x Hax). lra.
      * assert (Hxa : x <= a) by lra.
        pose proof (mass_chasles x a b) as Hc.
        pose proof (mass_nonneg x a Hxa). lra.
Qed.

Lemma norm_cdf_mirror (x : R) : norm.cdf (- x) = 1 - norm.cdf x.
Proof.
  unfold norm.cdf.
  pose proof (mass_below_mirror x) as Hm. pose proof total_mass_pos as Hp.
  replace (norm.mass_below (- x)) with (norm.total_mass - norm.mass_below x)
    by lra.
  field. lra.
Qed.

Lemma norm_cdf_0 : norm.cdf 0 = 1 / 2.
Proof.
  pose proof (norm_cdf_mirror 0) as H. rewrite Ropp_0 in H. lra.
Qed.

Lemma norm_cdf_half (mean s : R) :
  0 < s ->
  (0 <= mean -> norm.cdf (- mean / s) <= 1 / 2)
  /\ (mean <= 0 -> 1 / 2 <= norm.cdf (- mean / s)).
Proof.
  intros Hs. rewrite <- norm_cdf_0.
  split; intros Hm; apply norm_cdf_monotone.
  - replace 0 with (- 0 / s) by (field; lra).
    now apply standard_score_antitone.
  - replace 0 with (- 0 / s) by (field; lra).
    now apply standard_score_antitone.
Qed.

(** ** Further properties of the variance *)

(** X1: at t = 0 the variance is 0, for every sigma and every gamma other
    than 0. *)
Theorem vasicek_variance_at_0 (sigma gamma : R) :
  gamma <> 0 -> vasicek_variance sigma gamma 0 = Ok 0.
Proof.
  intros Hg. rewrite variance_value by exact Hg.
  rewrite Rmult_0_r, Ropp_0, exp_0. f_equal. ring.
Qed.

Lemma vasicek_variance_at_0_witness : vasicek_variance 0.05 0.25 0 = Ok 0.
Proof. apply vasicek_variance_at_0. lra. Defined.

(** X2: for gamma > 0 the variance tends to the stationary variance
    [sigma^2 / (2*gamma)] as t grows without bound. *)
Theorem vasicek_variance_long_run (sigma gamma : R) :
  0 < gamma ->
  tends_to_at_infinity (fun t => vasicek_variance sigma gamma t)
    (sigma ^ 2 / (2 * gamma)).
Proof.
  intros Hg eps He.
  pose proof (variance_scale_nonneg sigma gamma Hg) as HS.
  set (S := sigma ^ 2 / (2 * gamma)) in *.
  destruct (exp_neg_below (2 * gamma) (eps / (S + 1))) as [T HT];
    [lra | apply Rdiv_lt_0_compat; lra |].
  exists T. intros t Ht. eexists. split; [apply variance_value; lra |].
  fold S. specialize (HT t Ht).
  pose proof (exp_pos (- (2 * gamma * t))) as Hpos.
  apply lt_div_iff in HT; [| lra].
  replace (S * (1 - exp (- (2 * gamma * t))) - S)
    with (- (S * exp (- (2 * gamma * t)))) by ring.
  rewrite Rabs_Ropp, Rabs_pos_eq by nra. nra.
Qed.

Lemma vasicek_variance_long_run_witness :
  tends_to_at_infinity (fun t => vasicek_variance 0.05 0.25 t)
    (0.05 ^ 2 / (2 * 0.25)).
Proof. apply vasicek_variance_long_run. lra. Defined.

(** X3: for gamma > 0 the variance never exceeds the stationary variance
    [sigma^2 / (2*gamma)], whatever t is. *)
Theorem vasicek_variance_below_stationary (sigma gamma t : R) :
  0 < gamma ->
  exists v : R,
    vasicek_variance sigma gamma t = Ok v /\ v <= sigma ^ 2 / (2 * gamma).
Proof.
  intros Hg. eexists. split; [apply variance_value; lra |].
  pose proof (variance_scale_nonneg sigma gamma Hg) as HS.
  pose proof (exp_pos (- (2 * gamma * t))) as Hpos. nra.
Qed.

Lemma vasicek_variance_below_stationary_witness :
  exists v : R,
    vasicek_variance 0.05 0.25 5 = Ok v /\ v <= 0.05 ^ 2 / (2 * 0.25).
Proof. apply vasicek_variance_below_stationary. lra. Defined.

(** X4: for every gamma other than 0, negative ones included, the variance
    has the sign of t: not negative for t >= 0, not positive for t <= 0. *)
Theorem vasicek_variance_sign (sigma gamma t : R) :
  gamma <> 0 ->
  exists v : R,
    vasicek_variance sigma gamma t = Ok v
    /\ (0 <= t -> 0 <= v) /\ (t <= 0 -> v <= 0).
Proof.
  intros Hg. eexists. split; [apply variance_value; exact Hg |].
  destruct (decay_complement_sign gamma t) as (Hd0 & Hd1 & _).
  assert (Hs2 : 0 <= sigma ^ 2) by apply pow2_ge_0.
  destruct (Rdichotomy _ _ Hg) as [Hneg | Hpos].
  - assert (Hq : sigma ^ 2 / (2 * gamma) <= 0).
    { rewrite div_by_negative by lra.
      assert (0 <= sigma ^ 2 / - (2 * gamma))
        by (apply div_nonneg; lra).
      lra. }
    split; intros Ht.
    + assert (Hgt : gamma * t <= 0) by nra. specialize (Hd1 Hgt). nra.
    + assert (Hgt : 0 <= gamma * t) by nra. specialize (Hd0 Hgt). nra.
  - pose proof (variance_scale_nonneg sigma gamma Hpos) as Hq.
    split; intros Ht.
    + assert (Hgt : 0 <= gamma * t) by nra. specialize (Hd0 Hgt). nra.
    + assert (Hgt : gamma * t <= 0) by nra. specialize (Hd1 Hgt). nra.
Qed.

Lemma vasicek_variance_sign_witness :
  exists v : R,
    vasicek_variance 0.05 (- (0.25)) 5 = Ok v
    /\ (0 <= 5 -> 0 <= v) /\ (5 <= 0 -> v <= 0).
Proof. apply vasicek_variance_sign. lra. Defined.



(** ** Further properties of the expectation *)






(** ** Further properties of the negative-rate probability *)



(** X12: for a fixed positive variance, a larger mean never gives a larger
    probability of a negative rate. *)
Theorem negative_rate_probability_antitone (m1 m2 variance : R) :
  0 < variance -> m1 <= m2 ->
  exists p1 p2 : R,
    negative_rate_probability m1 variance = Ok p1
    /\ negative_rate_probability m2 variance = Ok p2
    /\ p2 <= p1.
Proof.
  intros Hv Hm. do 2 eexists.
  repeat split; try (apply negative_rate_probability_value; exact Hv).
  apply norm_cdf_monotone, standard_score_antitone; [| exact Hm].
  now apply sqrt_lt_R0.
Qed.

Lemma negative_rate_probability_antitone_witness :
  exists p1 p2 : R,
    negative_rate_probability 0.02 0.0045896 = Ok p1
    /\ negative_rate_probability 0.04 0.0045896 = Ok p2
    /\ p2 <= p1.
Proof. apply negative_rate_probability_antitone; lra. Defined.



(** X14: for a positive variance, the probabilities at a mean and at the
    opposite mean add up to 1. *)
Theorem negative_rate_probability_mirror (mean variance : R) :
  0 < variance ->
  exists p q : R,
    negative_rate_probability mean variance = Ok p
    /\ negative_rate_probability (- mean) variance = Ok q
    /\ p + q = 1.
Proof.
  intros Hv. do 2 eexists.
  repeat split; try (apply negative_rate_probability_value; exact Hv).
  replace (- - mean / sqrt variance) with (- (- mean / sqrt variance)).
  - rewrite norm_cdf_mirror. ring.
  - pose proof (sqrt_lt_R0 variance Hv). field. lra.
Qed.

Lemma negative_rate_probability_mirror_witness :
  exists p q : R,
    negative_rate_probability 0.02 0.0045896 = Ok p
    /\ negative_rate_probability (- (0.02)) 0.0045896 = Ok q
    /\ p + q = 1.
Proof. apply negative_rate_probability_mirror. lra. Defined.

(** X15: for a positive variance, a mean that is not negative gives a
    probability of at most one half, and a mean that is not positive a
    probability of at least one half. *)
Theorem negative_rate_probability_half (mean variance : R) :
  0 < variance ->
  exists p : R,
    negative_rate_probability mean variance = Ok p
    /\ (0 <= mean -> p <= 1 / 2) /\ (mean <= 0 -> 1 / 2 <= p).
Proof.
  intros Hv. eexists.
  split; [apply negative_rate_probability_value; exact Hv |].
  apply norm_cdf_half. now apply sqrt_lt_R0.
Qed.

Lemma negative_rate_probability_half_witness :
  exists p : R,
    negative_rate_probability 0.0342699 0.0045896 = Ok p
    /\ (0 <= 0.0342699 -> p <= 1 / 2) /\ (0.0342699 <= 0 -> 1 / 2 <= p).
Proof. apply negative_rate_probability_half. lra. Defined.

(** ** The notebook's run *)





(** X18: with gamma > 0, t > 0, sigma other than 0 and neither r_0 nor
    r_bar negative, the run ends in a probability of at most one half. *)
Theorem notebook_probability_at_most_half (gamma r_bar r_0 t sigma : R) :
  0 < gamma -> 0 < t -> sigma <> 0 -> 0 <= r_bar -> 0 <= r_0 ->
  exists p : R,
    notebook_negative_rate_probability gamma r_bar r_0 t sigma = Ok p
    /\ p <= 1 / 2.
Proof.
  intros Hg Ht Hs Hb H0. rewrite pipeline_value by lra.
  assert (Hv : 0 < sigma ^ 2 / (2 * gamma) * (1 - exp (- (2 * gamma * t))))
    by (apply variance_positive; lra).
  eexists. split; [now apply negative_rate_probability_value |].
  apply norm_cdf_half; [now apply sqrt_lt_R0 |].
  apply expectation_nonneg; lra.
Qed.

Lemma notebook_probability_at_most_half_witness :
  exists p : R,
    notebook_negative_rate_probability 0.25 0.04 0.02 5 0.05 = Ok p
    /\ p <= 1 / 2.
Proof. apply notebook_probability_at_most_half; lra. Defined.
